(** * A user record and an in-memory user directory

    Shallow embedding of
    - [models/user.py]: the dataclass [User] and its [__post_init__] check;
    - [services/user_service.py]: the class [UserService] with
      [get_user_by_id] and [create_user].

    Python objects are mutable and are handed around by reference: the object
    that [create_user] returns is the very object that it appended to
    [self._users].  The embedding therefore keeps an explicit object store and
    lets the directory hold references into it.  Exceptions do not roll the
    store back, so a computation yields its outcome together with the store it
    leaves behind. *)

From Stdlib Require Import ZArith String Ascii List Lia.
From stdpp Require Import base list strings.
Import ListNotations.

Local Open Scope Z_scope.
Local Open Scope string_scope.

(** ** Values of the Python runtime that the two files use *)

(** [datetime.datetime]: the code stores it and never inspects it; a reading
    of the clock is a number of microseconds. *)
Definition datetime : Type := Z.

(** A reference to an object: its index in the object store. *)
Abbreviation ref := nat.

(** The exceptions.  [ValueError] is the one the source raises.  An ordinary
    Python reference always denotes a live object; [ReferenceError] only makes
    the dereference below a total function and is shown never to be raised
    from a well-formed store. *)
Inductive exn : Type :=
| ValueError (msg : string)
| ReferenceError.

(** A [str] is held as the bytes of its UTF-8 encoding.  Both tests the source
    makes on a string read the same on the bytes as on the characters: the
    string is empty exactly when it has no byte, and ['@'] is a single byte
    that occurs in the encoding of no other character. *)

(** [bool(s)] for a [str]: true exactly when the string has a character. *)
Definition str_bool (s : string) : bool :=
  negb (Nat.eqb (String.length s) 0).

(** [sub in s] for two [str]: [sub] occurs in [s] as a substring. *)
Fixpoint str_in (sub s : string) : bool :=
  String.prefix sub s ||
  match s with
  | EmptyString => false
  | String _ s' => str_in sub s'
  end.

(** ** models/user.py *)

Module user.

(** [@dataclass class User]: four fields, in declaration order. *)
Record User : Type := mkUser {
  id : Z;
  email : string;
  name : string;
  created_at : datetime
}.

(** [User.__post_init__]: the two checks, in the order of the source. *)
Definition __post_init__ (self : User) : exn + unit :=
  if negb (str_bool (email self)) then
    inl (ValueError "Email is required")
  else if negb (str_in "@" (email self)) then
    inl (ValueError "Invalid email format")
  else
    inr tt.

End user.

Abbreviation User := user.User.

(** ** The store and computations over it *)

(** [heap] holds every constructed [User]; [_users] is the list object of the
    one [UserService] instance under study, a list of references. *)
Record world : Type := World {
  heap : list User;
  _users : list ref
}.

(** A computation returns or raises, and in both cases leaves a store. *)
Definition M (A : Type) : Type := world -> (exn + A) * world.

Definition ret {A : Type} (a : A) : M A :=
  fun w => (inr a, w).

Definition raise {A : Type} (e : exn) : M A :=
  fun w => (inl e, w).

Definition bind {A B : Type} (m : M A) (k : A -> M B) : M B :=
  fun w =>
    match m w with
    | (inr a, w') => k a w'
    | (inl e, w') => (inl e, w')
    end.

Notation "x <- m ;; k" := (bind m (fun x => k))
  (at level 200, m at level 99, k at level 200, right associativity,
   format "'[v' x  <-  m  ;; '/' k ']'").
Notation "m ;;; k" := (bind m (fun _ => k))
  (at level 200, k at level 200, right associativity,
   format "'[v' m  ;;; '/' k ']'").

(** Run a check that touches no store: return what it returns, raise what
    it raises. *)
Definition lift {A : Type} (r : exn + A) : M A :=
  match r with
  | inl e => raise e
  | inr a => ret a
  end.

(** Enter a new object in the store; its reference is the next free index. *)
Definition alloc (u : User) : M ref :=
  fun w => (inr (length (heap w)), World (heap w ++ [u]) (_users w)).

(** Read the object a reference denotes. *)
Definition deref (r : ref) : M User :=
  fun w =>
    match heap w !! r with
    | Some u => (inr u, w)
    | None => (inl ReferenceError, w)
    end.

(** Attribute reads: [user.id], [user.email], [user.name],
    [user.created_at]. *)
Definition getattr {A : Type} (field : User -> A) (r : ref) : M A :=
  u <- deref r ;; ret (field u).

(** Attribute writes.  [User] is declared with a bare [@dataclass], so it is
    not frozen and has no [__setattr__] of its own: an assignment
    [user.f = v] stores [v] in the object and runs no other code. *)
Inductive attr : Type :=
| attr_id (v : Z)
| attr_email (v : string)
| attr_name (v : string)
| attr_created_at (v : datetime).

Definition assign (a : attr) (u : User) : User :=
  match a with
  | attr_id v => user.mkUser v (user.email u) (user.name u) (user.created_at u)
  | attr_email v => user.mkUser (user.id u) v (user.name u) (user.created_at u)
  | attr_name v => user.mkUser (user.id u) (user.email u) v (user.created_at u)
  | attr_created_at v => user.mkUser (user.id u) (user.email u) (user.name u) v
  end.

Definition setattr (r : ref) (a : attr) : M unit :=
  u <- deref r ;;
  fun w => (inr tt, World (<[r := assign a u]> (heap w)) (_users w)).

(** [User(id=..., email=..., name=..., created_at=...)]: the generated
    [__init__] fills the fields and then calls [__post_init__].  When that
    raises, nobody holds the object, so it never enters the store. *)
Definition User_new (id : Z) (email name : string) (created_at : datetime)
  : M ref :=
  let self := user.mkUser id email name created_at in
  lift (user.__post_init__ self) ;;;
  alloc self.

(** ** services/user_service.py *)

Module UserService.

(** [UserService.__init__]: [self._users = []]. *)
Definition __init__ : M unit :=
  fun w => (inr tt, World (heap w) []).

(** [len(self._users)] *)
Definition len_users : M Z :=
  fun w => (inr (Z.of_nat (length (_users w))), w).

(** [self._users.append(user)] *)
Definition append (user : ref) : M unit :=
  fun w => (inr tt, World (heap w) (_users w ++ [user])).

(** The loop of [get_user_by_id] over the elements still to visit. *)
Fixpoint for_user_in (users : list ref) (user_id : Z) : M (option ref) :=
  match users with
  | [] => ret None
  | user :: rest =>
      uid <- getattr user.id user ;;
      if Z.eqb uid user_id then ret (Some user)
      else for_user_in rest user_id
  end.

(** [get_user_by_id]: [None] stands for Python's [None]. *)
Definition get_user_by_id (user_id : Z) : M (option ref) :=
  fun w => for_user_in (_users w) user_id w.

(** [create_user]; [now] is the value that [datetime.now()] returns in
    this call. *)
Definition create_user (email name : string) (now : datetime) : M ref :=
  n <- len_users ;;
  let user_id := n + 1 in
  user <- User_new user_id email name now ;;
  append user ;;;
  ret user.

End UserService.

(** ** Programs that use the directory *)

(** What a caller can do with the two classes: call [create_user], call
    [get_user_by_id], or build a [User] directly.  A caller that catches the
    exception of one call goes on with the next. *)
Inductive call : Type :=
| call_create_user (email name : string) (now : datetime)
| call_get_user_by_id (user_id : Z)
| call_User (id : Z) (email name : string) (created_at : datetime).

Inductive value : Type :=
| val_user (r : ref)
| val_optional (o : option ref).

Definition perform (c : call) : M value :=
  match c with
  | call_create_user e n now =>
      r <- UserService.create_user e n now ;; ret (val_user r)
  | call_get_user_by_id i =>
      o <- UserService.get_user_by_id i ;; ret (val_optional o)
  | call_User i e n t =>
      r <- User_new i e n t ;; ret (val_user r)
  end.

#[global] Arguments perform : simpl never.

(** One executed call: what it was, how it ended, the store it left. *)
Record step : Type := Step {
  step_call : call;
  step_outcome : exn + value;
  step_world : world
}.

Fixpoint trace (cs : list call) (w : world) : list step :=
  match cs with
  | [] => []
  | c :: cs' =>
      let (o, w') := perform c w in
      Step c o w' :: trace cs' w'
  end.

Fixpoint final (cs : list call) (w : world) : world :=
  match cs with
  | [] => w
  | c :: cs' => final cs' (snd (perform c w))
  end.

(** The [create_user] calls of a trace that returned: the reference each one
    returned, with the store at that moment. *)
Fixpoint created (t : list step) : list (ref * world) :=
  match t with
  | [] => []
  | Step (call_create_user _ _ _) (inr (val_user r)) w :: t' =>
      (r, w) :: created t'
  | _ :: t' => created t'
  end.

(** The world a program starts in: nothing constructed, and the fresh
    directory that [UserService.__init__] leaves. *)
Definition init : world := snd (UserService.__init__ (World [] [])).

(** ** Vocabulary of the properties *)

(** The character ['@'] occurs in the string. *)
Definition has_at (s : string) : Prop :=
  In "@"%char (list_ascii_of_string s).

(** [user.id] of the object behind a reference, when there is one. *)
Definition id_of (w : world) (r : ref) : option Z :=
  user.id <$> heap w !! r.

(** Every reference the directory holds denotes an object. *)
Definition wf (w : world) : Prop :=
  Forall (fun r => (r < length (heap w))%nat) (_users w).

(** [res] is the first element of the list, in list order, whose [id] is
    [user_id]; [None] when no element has that id. *)
Definition first_with_id (w : world) (user_id : Z) (res : option ref) : Prop :=
  match res with
  | Some r =>
      exists before after,
        _users w = (before ++ r :: after)%list /\
        id_of w r = Some user_id /\
        Forall (fun r' => id_of w r' <> Some user_id) before
  | None => Forall (fun r' => id_of w r' <> Some user_id) (_users w)
  end.

(** The ids of the stored records, in insertion order. *)
Definition stored_ids (w : world) : list (option Z) :=
  map (id_of w) (_users w).

(** The two errors of the construction. *)
Definition missing_email : exn := ValueError "Email is required".
Definition invalid_email_format : exn := ValueError "Invalid email format".

(** The test of the loop body, as a function of the element. *)
Definition matches (w : world) (user_id : Z) (r : ref) : bool :=
  match id_of w r with
  | Some i => Z.eqb i user_id
  | None => false
  end.

(** The record at position [i] of the list (from 0) has [id] [i + 1]. *)
Definition numbered (w : world) : Prop :=
  forall (i : nat) (r : ref),
    _users w !! i = Some r -> id_of w r = Some (Z.of_nat i + 1).

(** The reading of "not externally writable": an assignment to a field of a
    record, made by whoever holds a reference to it, leaves the record as it
    was. *)
Definition not_externally_writable : Prop :=
  forall (w : world) (r : ref) (a : attr) (u : User),
    heap w !! r = Some u ->
    heap (snd (setattr r a w)) !! r = Some u.

(** The two checks of [__post_init__] as one test on the email. *)
Definition email_ok (e : string) : bool :=
  str_bool e && str_in "@" e.

(** The email of a record passes both checks. *)
Definition valid_record (u : User) : Prop :=
  user.email u <> "" /\ has_at (user.email u).

(** The calls whose construction is given an email that passes. *)
Definition effective (c : call) : bool :=
  match c with
  | call_create_user e _ _ => email_ok e
  | call_get_user_by_id _ => false
  | call_User _ e _ _ => email_ok e
  end.

(** The arguments of the [create_user] calls of a program whose email
    passes, in the order of the calls. *)
Fixpoint accepted (cs : list call) : list (string * string * datetime) :=
  match cs with
  | [] => []
  | call_create_user e n now :: cs' =>
      if email_ok e then (e, n, now) :: accepted cs' else accepted cs'
  | _ :: cs' => accepted cs'
  end.

(** Records made of the given arguments, with ids counting up from [k]. *)
Fixpoint number_from (k : Z) (l : list (string * string * datetime))
  : list User :=
  match l with
  | [] => []
  | (e, n, t) :: l' => user.mkUser k e n t :: number_from (k + 1) l'
  end.

(** The stored records, in insertion order. *)
Definition records (w : world) : list (option User) :=
  map (fun r => heap w !! r) (_users w).

(** The assignment writes the field [id]. *)
Definition writes_id (a : attr) : bool :=
  match a with
  | attr_id _ => true
  | _ => false
  end.

(** A store with objects in it and a directory that was used before. *)
Definition used : world :=
  World [ user.mkUser 41 "p@q" "P" 1; user.mkUser 42 "r@s" "R" 2 ]
        [ 1%nat ].

(** A directory whose only record was given the id 2 by its holder. *)
Definition alice_as_two : world :=
  World [ user.mkUser 2 "a@b.com" "Alice" 1000 ] [ 0%nat ].

(** ** Concrete programs and stores *)

(** The scenario of the specification. *)
Definition scenario : list call :=
  [ call_create_user "a@b.com" "Alice" 1000;
    call_create_user "carol" "Carol" 2000;
    call_create_user "bob@x.com" "Bob" 3000;
    call_get_user_by_id 1;
    call_get_user_by_id 99 ].

(** The directory after its first successful creation. *)
Definition alice_only : world :=
  final [call_create_user "a@b.com" "Alice" 1000] init.

(** A store that the directory's own calls never build: two records with
    the same [id]. *)
Definition twins : world :=
  World [ user.mkUser 7 "x@y" "first" 10;
          user.mkUser 5 "u@v" "other" 20;
          user.mkUser 7 "z@t" "second" 30 ]
        [ 1%nat; 0%nat; 2%nat ].

(** The record that [create_user] returned for Alice and stored, after its
    holder ran [user.email = ""]. *)
Definition alice_blanked : world :=
  World [ user.mkUser 1 "" "Alice" 1000 ] [ 0%nat ].

(** * Properties *)

(** ** Strings *)

Lemma str_bool_empty (s : string) : str_bool s = false <-> s = "".
Proof.
  destruct s as [|c s]; cbn; split; intros H;
    solve [reflexivity | discriminate H].
Qed.

Lemma prefix_at (s : string) :
  String.prefix "@" s = true <->
  exists s', s = String "@"%char s'.
Proof.
  destruct s as [|c s].
  - split; [discriminate | intros [s' H]; discriminate].
  - change (String.prefix "@" (String c s))
      with (if Ascii.ascii_dec "@"%char c then String.prefix "" s else false).
    destruct (Ascii.ascii_dec "@"%char c) as [<-|Hne].
    + split; [eauto | intros _; now destruct s].
    + split; [discriminate | intros [s' H]; congruence].
Qed.

(** On a one-character needle the substring test is membership of that
    character. *)
Lemma str_in_at (s : string) : str_in "@" s = true <-> has_at s.
Proof.
  unfold has_at. induction s as [|c s IH].
  - simpl. split; [discriminate | tauto].
  - change (str_in "@" (String c s))
      with (String.prefix "@" (String c s) || str_in "@" s).
    rewrite orb_true_iff, prefix_at, IH. simpl. split.
    + intros [[s' H]|H]; [left; congruence | now right].
    + intros [H|H]; [left; exists s; congruence | now right].
Qed.

Lemma str_in_at_false (s : string) : str_in "@" s = false <-> ~ has_at s.
Proof.
  rewrite <- str_in_at. destruct (str_in "@" s); split; congruence.
Qed.

(** ** The check of the record *)

Lemma post_init_ok (i : Z) (e n : string) (t : datetime) :
  e <> "" -> has_at e ->
  user.__post_init__ (user.mkUser i e n t) = inr tt.
Proof.
  intros He Hat. unfold user.__post_init__. simpl.
  destruct (str_bool e) eqn:Hb.
  - apply str_in_at in Hat. now rewrite Hat.
  - apply str_bool_empty in Hb. contradiction.
Qed.

Lemma post_init_empty (i : Z) (n : string) (t : datetime) :
  user.__post_init__ (user.mkUser i "" n t) = inl missing_email.
Proof. reflexivity. Qed.

Lemma post_init_no_at (i : Z) (e n : string) (t : datetime) :
  e <> "" -> ~ has_at e ->
  user.__post_init__ (user.mkUser i e n t) = inl invalid_email_format.
Proof.
  intros He Hat. unfold user.__post_init__. simpl.
  destruct (str_bool e) eqn:Hb.
  - apply str_in_at_false in Hat. now rewrite Hat.
  - apply str_bool_empty in Hb. contradiction.
Qed.

(** Whatever [__post_init__] returns or raises is what the construction
    does, and a raising construction leaves the store as it was. *)
Lemma User_new_raises (i : Z) (e n : string) (t : datetime) (err : exn) (w : world) :
  user.__post_init__ (user.mkUser i e n t) = inl err ->
  User_new i e n t w = (inl err, w).
Proof. intros H. unfold User_new, bind, lift. now rewrite H. Qed.

Lemma User_new_returns (i : Z) (e n : string) (t : datetime) (w : world) :
  user.__post_init__ (user.mkUser i e n t) = inr tt ->
  User_new i e n t w =
  (inr (length (heap w)),
   World (heap w ++ [user.mkUser i e n t]) (_users w)).
Proof. intros H. unfold User_new, bind, lift. now rewrite H. Qed.

Lemma create_user_raises (e n : string) (now : datetime) (err : exn) (w : world) :
  user.__post_init__
    (user.mkUser (Z.of_nat (length (_users w)) + 1) e n now) = inl err ->
  UserService.create_user e n now w = (inl err, w).
Proof.
  intros H. unfold UserService.create_user, bind, UserService.len_users.
  now rewrite (User_new_raises _ _ _ _ _ _ H).
Qed.

Lemma create_user_returns (e n : string) (now : datetime) (w : world) :
  user.__post_init__
    (user.mkUser (Z.of_nat (length (_users w)) + 1) e n now) = inr tt ->
  UserService.create_user e n now w =
  (inr (length (heap w)),
   World (heap w ++ [user.mkUser (Z.of_nat (length (_users w)) + 1) e n now])
         (_users w ++ [length (heap w)])).
Proof.
  intros H. unfold UserService.create_user, bind, UserService.len_users.
  now rewrite (User_new_returns _ _ _ _ _ H).
Qed.

(** The two ways [create_user] can end. *)
Lemma create_user_cases (e n : string) (now : datetime) (w : world) :
  let u := user.mkUser (Z.of_nat (length (_users w)) + 1) e n now in
  (exists err, user.__post_init__ u = inl err /\
               UserService.create_user e n now w = (inl err, w)) \/
  (user.__post_init__ u = inr tt /\
   UserService.create_user e n now w =
   (inr (length (heap w)),
    World (heap w ++ [u]) (_users w ++ [length (heap w)]))).
Proof.
  intros u. destruct (user.__post_init__ u) as [err|[]] eqn:H.
  - left. exists err. split; [reflexivity | now apply create_user_raises].
  - right. split; [reflexivity | now apply create_user_returns].
Qed.

Lemma lookup_snoc {A : Type} (l : list A) (x : A) :
  (l ++ [x])%list !! length l = Some x.
Proof. rewrite lookup_app_r by lia. now rewrite Nat.sub_diag. Qed.

(** ** Reads *)

Lemma deref_valid (r : ref) (u : User) (w : world) :
  heap w !! r = Some u -> deref r w = (inr u, w).
Proof. intros H. unfold deref. now rewrite H. Qed.

Lemma getattr_valid {A : Type} (field : User -> A) (r : ref) (u : User) (w : world) :
  heap w !! r = Some u -> getattr field r w = (inr (field u), w).
Proof. intros H. unfold getattr, bind. now rewrite (deref_valid _ _ _ H). Qed.

Lemma getattr_frame {A : Type} (field : User -> A) (r : ref) (w : world) :
  snd (getattr field r w) = w.
Proof. unfold getattr, bind, deref. now destruct (heap w !! r). Qed.

Lemma id_of_Some (w : world) (r : ref) (i : Z) :
  id_of w r = Some i <-> exists u, heap w !! r = Some u /\ user.id u = i.
Proof.
  unfold id_of. destruct (heap w !! r) as [u|]; simpl; split.
  - intros [= <-]. now exists u.
  - intros (u' & [= <-] & <-). reflexivity.
  - discriminate.
  - intros (u' & H & _). discriminate.
Qed.

(** ** The loop of [get_user_by_id] *)

Lemma matches_true (w : world) (user_id : Z) (r : ref) :
  matches w user_id r = true <-> id_of w r = Some user_id.
Proof.
  unfold matches. destruct (id_of w r) as [i|].
  - rewrite Z.eqb_eq. split; congruence.
  - split; discriminate.
Qed.

Lemma matches_false (w : world) (user_id : Z) (r : ref) :
  matches w user_id r = false <-> id_of w r <> Some user_id.
Proof.
  rewrite <- matches_true. destruct (matches w user_id r); split; congruence.
Qed.

(** The loop never writes, whatever the list and the store. *)
Lemma for_user_in_frame (users : list ref) (user_id : Z) (w : world) :
  snd (UserService.for_user_in users user_id w) = w.
Proof.
  induction users as [|r rest IH]; [reflexivity|].
  simpl. unfold bind.
  pose proof (getattr_frame user.id r w) as Hf.
  destruct (getattr user.id r w) as [[e|uid] w1]; simpl in Hf; subst w1.
  - reflexivity.
  - destruct (Z.eqb uid user_id); [reflexivity | exact IH].
Qed.

(** Over live references the loop is [find] with the test of its body. *)
Lemma for_user_in_find (users : list ref) (user_id : Z) (w : world) :
  Forall (fun r => (r < length (heap w))%nat) users ->
  UserService.for_user_in users user_id w =
  (inr (List.find (matches w user_id) users), w).
Proof.
  induction 1 as [|r rest Hr _ IH]; [reflexivity|].
  apply lookup_lt_is_Some in Hr. destruct Hr as [u Hu].
  assert (Hm : matches w user_id r = Z.eqb (user.id u) user_id).
  { unfold matches, id_of. now rewrite Hu. }
  simpl. unfold bind. rewrite (getattr_valid _ _ _ _ Hu), Hm.
  destruct (Z.eqb (user.id u) user_id); [reflexivity | exact IH].
Qed.

Lemma get_user_by_id_find (user_id : Z) (w : world) :
  wf w ->
  UserService.get_user_by_id user_id w =
  (inr (List.find (matches w user_id) (_users w)), w).
Proof. intros H. now apply for_user_in_find. Qed.

(** [find] returns the first element that passes the test. *)
Lemma find_first {A : Type} (f : A -> bool) (l : list A) :
  match List.find f l with
  | Some x =>
      exists before after,
        l = (before ++ x :: after)%list /\ f x = true /\
        Forall (fun y => f y = false) before
  | None => Forall (fun y => f y = false) l
  end.
Proof.
  induction l as [|a l IH]; simpl; [constructor|].
  destruct (f a) eqn:Ha.
  - exists [], l. repeat split; [exact Ha | constructor].
  - destruct (List.find f l) as [x|].
    + destruct IH as (before & after & -> & Hx & Hb).
      exists (a :: before), after. repeat split; [exact Hx|].
      now constructor.
    + now constructor.
Qed.

Lemma find_matches_first (user_id : Z) (w : world) :
  first_with_id w user_id (List.find (matches w user_id) (_users w)).
Proof.
  unfold first_with_id.
  pose proof (find_first (matches w user_id) (_users w)) as H.
  destruct (List.find (matches w user_id) (_users w)) as [r|].
  - destruct H as (before & after & E & Hr & Hb).
    exists before, after. split; [exact E|]. split.
    + now apply matches_true.
    + eapply Forall_impl; [exact Hb|]. intros r'. apply matches_false.
  - eapply Forall_impl; [exact H|]. intros r'. apply matches_false.
Qed.

(** ** One call *)

(** What each kind of call returns and what it does to the store. *)
Lemma perform_inv (c : call) (w : world) :
  match c with
  | call_create_user e n now =>
      let u := user.mkUser (Z.of_nat (length (_users w)) + 1) e n now in
      (exists err, user.__post_init__ u = inl err /\
                   perform c w = (inl err, w)) \/
      (user.__post_init__ u = inr tt /\
       perform c w =
       (inr (val_user (length (heap w))),
        World (heap w ++ [u]) (_users w ++ [length (heap w)])))
  | call_get_user_by_id i =>
      exists o, perform c w = (o, w)
  | call_User i e n t =>
      let u := user.mkUser i e n t in
      (exists err, user.__post_init__ u = inl err /\
                   perform c w = (inl err, w)) \/
      (user.__post_init__ u = inr tt /\
       perform c w =
       (inr (val_user (length (heap w))), World (heap w ++ [u]) (_users w)))
  end.
Proof.
  destruct c as [e n now|i|i e n t]; unfold perform.
  - destruct (create_user_cases e n now w) as [(err & H1 & H2)|(H1 & H2)].
    + left. exists err. split; [exact H1|]. unfold bind. now rewrite H2.
    + right. split; [exact H1|]. unfold bind. now rewrite H2.
  - pose proof (for_user_in_frame (_users w) i w) as Hf.
    unfold bind, UserService.get_user_by_id.
    destruct (UserService.for_user_in (_users w) i w) as [[err|o] w1];
      simpl in Hf; subst w1; eauto.
  - destruct (user.__post_init__ (user.mkUser i e n t)) as [err|[]] eqn:H.
    + left. exists err. split; [reflexivity|].
      unfold bind. now rewrite (User_new_raises _ _ _ _ _ _ H).
    + right. split; [reflexivity|].
      unfold bind. now rewrite (User_new_returns _ _ _ _ _ H).
Qed.

(** A call only ever adds: the objects and the directory's list before the
    call are initial segments of those after it. *)
Lemma perform_grows (c : call) (w : world) :
  heap w `prefix_of` heap (snd (perform c w)) /\
  _users w `prefix_of` _users (snd (perform c w)).
Proof.
  pose proof (perform_inv c w) as H.
  destruct c as [e n now|i|i e n t]; cbv beta iota zeta in H.
  - destruct H as [(err & _ & ->)|(_ & ->)]; simpl;
      split; first [reflexivity | apply prefix_app_r; reflexivity].
  - destruct H as (o & ->). split; reflexivity.
  - destruct H as [(err & _ & ->)|(_ & ->)]; simpl;
      split; first [reflexivity | apply prefix_app_r; reflexivity].
Qed.

(** ** Sequences of calls *)

Lemma final_app (cs1 cs2 : list call) (w : world) :
  final (cs1 ++ cs2) w = final cs2 (final cs1 w).
Proof. revert w. induction cs1 as [|c cs1 IH]; intros w; simpl; auto. Qed.

Lemma final_grows (cs : list call) (w : world) :
  heap w `prefix_of` heap (final cs w) /\
  _users w `prefix_of` _users (final cs w).
Proof.
  revert w. induction cs as [|c cs IH]; intros w; simpl.
  - split; reflexivity.
  - destruct (perform_grows c w) as [H1 H2].
    destruct (IH (snd (perform c w))) as [H3 H4].
    split; etransitivity; eassumption.
Qed.

(** An object, once in the store, stays there as it is. *)
Lemma final_keeps (cs : list call) (w : world) (r : ref) (u : User) :
  heap w !! r = Some u -> heap (final cs w) !! r = Some u.
Proof.
  intros H. destruct (final_grows cs w) as [Hp _].
  eapply prefix_lookup_Some; eassumption.
Qed.

Lemma final_keeps_id (cs : list call) (w : world) (r : ref) (i : Z) :
  id_of w r = Some i -> id_of (final cs w) r = Some i.
Proof.
  rewrite !id_of_Some. intros (u & H & E). exists u.
  split; [now apply final_keeps | exact E].
Qed.

(** The directory's list is what it was, followed by the references that
    the [create_user] calls returned, in the order of the calls. *)
Lemma users_created (cs : list call) (w : world) :
  _users (final cs w) = (_users w ++ map fst (created (trace cs w)))%list.
Proof.
  revert w. induction cs as [|c cs IH]; intros w; simpl.
  - now rewrite app_nil_r.
  - pose proof (perform_inv c w) as H.
    destruct c as [e n now|i|i e n t]; cbv beta iota zeta in H.
    + destruct H as [(err & _ & E)|(_ & E)]; rewrite E; simpl; rewrite IH.
      * reflexivity.
      * simpl. now rewrite <- app_assoc.
    + destruct H as (o & E). rewrite E. simpl. now rewrite IH.
    + destruct H as [(err & _ & E)|(_ & E)]; rewrite E; simpl; now rewrite IH.
Qed.

(** ** The invariant of the directory *)

Lemma numbered_init : numbered init.
Proof. intros i r H. discriminate H. Qed.

Lemma numbered_wf (w : world) : numbered w -> wf w.
Proof.
  intros Hn. apply Forall_lookup. intros i r Hi.
  apply Hn, id_of_Some in Hi. destruct Hi as (u & Hu & _).
  eapply lookup_lt_Some; exact Hu.
Qed.

Lemma id_of_grow (w : world) (u : User) (us : list ref) (r : ref) (i : Z) :
  id_of w r = Some i ->
  id_of (World (heap w ++ [u]) us) r = Some i.
Proof.
  rewrite !id_of_Some. intros (u' & H & E). exists u'. split; [|exact E].
  simpl. now apply lookup_app_l_Some.
Qed.

Lemma perform_numbered (c : call) (w : world) :
  numbered w -> numbered (snd (perform c w)).
Proof.
  intros Hn. pose proof (perform_inv c w) as H.
  destruct c as [e n now|i|i e n t]; cbv beta iota zeta in H.
  - destruct H as [(err & _ & ->)|(_ & ->)]; [exact Hn|].
    intros i r Hi. simpl in Hi.
    destruct (decide (i < length (_users w))%nat) as [Hlt|Hge].
    + rewrite lookup_app_l in Hi by exact Hlt.
      now apply id_of_grow, Hn.
    + apply lookup_lt_Some in Hi as Hlen.
      rewrite length_app in Hlen. simpl in Hlen.
      assert (i = length (_users w)) as -> by lia.
      rewrite lookup_snoc in Hi. injection Hi as <-.
      apply id_of_Some. eexists. split; [apply lookup_snoc | reflexivity].
  - destruct H as (o & ->). exact Hn.
  - destruct H as [(err & _ & ->)|(_ & ->)]; [exact Hn|].
    intros j r Hj. now apply id_of_grow, Hn.
Qed.

Lemma final_numbered (cs : list call) (w : world) :
  numbered w -> numbered (final cs w).
Proof.
  revert w. induction cs as [|c cs IH]; intros w Hn; simpl; [exact Hn|].
  now apply IH, perform_numbered.
Qed.

(** In a numbered directory the lookup of [k] is the element at position
    [k - 1], and nothing outside [1 .. N]. *)
Lemma find_numbered (w : world) (k : Z) :
  numbered w ->
  List.find (matches w k) (_users w) =
  if decide (1 <= k <= Z.of_nat (length (_users w)))
  then _users w !! Z.to_nat (k - 1)
  else None.
Proof.
  intros Hn.
  pose proof (find_first (matches w k) (_users w)) as H.
  destruct (List.find (matches w k) (_users w)) as [r|].
  - destruct H as (before & after & E & Hr & _).
    apply matches_true in Hr.
    assert (Hpos : _users w !! length before = Some r).
    { rewrite E. now apply list_lookup_middle. }
    pose proof (Hn _ _ Hpos) as Hid. rewrite Hr in Hid.
    injection Hid as ->.
    apply lookup_lt_Some in Hpos as Hlt.
    rewrite decide_True by lia.
    replace (Z.to_nat (Z.of_nat (length before) + 1 - 1)) with (length before)
      by lia.
    now rewrite Hpos.
  - destruct (decide (1 <= k <= Z.of_nat (length (_users w)))) as [Hk|];
      [|reflexivity].
    exfalso.
    destruct (lookup_lt_is_Some_2 (_users w) (Z.to_nat (k - 1))) as [r Hr];
      [lia|].
    rewrite Forall_lookup in H. pose proof (H _ _ Hr) as Hm.
    apply matches_false in Hm. apply Hm.
    rewrite (Hn _ _ Hr). f_equal. lia.
Qed.

(** The store by the time a [create_user] call of the trace returned [r]:
    [r] is live, it has a place in the list, and the final list has it at
    that place. *)
Lemma created_inv (cs : list call) (w : world) (r : ref) (w' : world) :
  (r, w') ∈ created (trace cs w) ->
  exists (i : nat) (u : User),
    heap w' !! r = Some u /\
    heap (final cs w) !! r = Some u /\
    _users w' !! i = Some r /\
    _users (final cs w) !! i = Some r /\
    (numbered w -> numbered w').
Proof.
  revert w. induction cs as [|c cs IH]; intros w Hin; simpl in Hin.
  - inversion Hin.
  - pose proof (perform_numbered c w) as Hpn.
    pose proof (perform_inv c w) as H.
    destruct c as [e n now|j|j e n t]; cbv beta iota zeta in H.
    + destruct H as [(err & _ & E)|(_ & E)]; simpl; rewrite E in *;
        simpl in *.
      * destruct (IH _ Hin) as (i & u & ? & ? & ? & ? & ?).
        exists i, u. repeat split; auto.
      * apply elem_of_cons in Hin. destruct Hin as [[= -> ->]|Hin].
        -- eexists (length (_users w)), _.
           split; [apply lookup_snoc|].
           split; [apply final_keeps, lookup_snoc|].
           split; [apply lookup_snoc|].
           split; [|exact Hpn].
           destruct (final_grows cs
             (World (heap w ++ [user.mkUser (Z.of_nat (length (_users w)) + 1) e n now])
                    (_users w ++ [length (heap w)]))) as [_ Hp].
           eapply prefix_lookup_Some; [apply lookup_snoc | exact Hp].
        -- destruct (IH _ Hin) as (i & u & ? & ? & ? & ? & ?).
           exists i, u. repeat split; auto.
    + destruct H as (o & E). simpl. rewrite E in *. simpl in *.
      destruct o as [err|v]; destruct (IH _ Hin) as (i & u & ? & ? & ? & ? & ?);
        exists i, u; repeat split; auto.
    + destruct H as [(err & _ & E)|(_ & E)]; simpl; rewrite E in *;
        simpl in *; destruct (IH _ Hin) as (i & u & ? & ? & ? & ? & ?);
        exists i, u; repeat split; auto.
Qed.

(** ** Well-formed stores *)

(** Every operation of the embedding keeps the references of the directory
    live, the caller's assignments included. *)
Lemma wf_init : wf init.
Proof. constructor. Qed.

Lemma wf_grow (w : world) (hs : list User) (us : list ref) :
  wf w ->
  Forall (fun r => (r < length (heap w ++ hs))%nat) us ->
  wf (World (heap w ++ hs) (_users w ++ us)).
Proof.
  intros Hw Hus. unfold wf. simpl. apply Forall_app. split; [|exact Hus].
  eapply Forall_impl; [exact Hw|].
  intros r Hr. simpl in Hr. rewrite length_app. lia.
Qed.

Lemma wf_perform (c : call) (w : world) : wf w -> wf (snd (perform c w)).
Proof.
  intros Hw. pose proof (perform_inv c w) as H.
  destruct c as [e n now|i|i e n t]; cbv beta iota zeta in H.
  - destruct H as [(err & _ & ->)|(_ & ->)]; [exact Hw|].
    apply wf_grow; [exact Hw|].
    repeat constructor. rewrite length_app. simpl. lia.
  - destruct H as (o & ->). exact Hw.
  - destruct H as [(err & _ & ->)|(_ & ->)]; [exact Hw|].
    simpl. rewrite <- (app_nil_r (_users w)).
    apply wf_grow; [exact Hw | constructor].
Qed.

Lemma wf_setattr (r : ref) (a : attr) (w : world) :
  wf w -> wf (snd (setattr r a w)).
Proof.
  intros Hw. unfold setattr, bind, deref.
  destruct (heap w !! r) as [u|]; [|exact Hw].
  unfold wf. simpl. now rewrite length_insert.
Qed.

(** ** The scenario of the specification, run on the embedding *)

Example scenario_outcomes :
  map step_outcome (trace scenario init) =
  [ inr (val_user 0%nat);
    inl invalid_email_format;
    inr (val_user 1%nat);
    inr (val_optional (Some 0%nat));
    inr (val_optional None) ].
Proof. reflexivity. Qed.

Example scenario_final :
  final scenario init =
  World [ user.mkUser 1 "a@b.com" "Alice" 1000;
          user.mkUser 2 "bob@x.com" "Bob" 3000 ]
        [ 0%nat; 1%nat ].
Proof. reflexivity. Qed.

Example scenario_after_failure :
  map (fun s => length (_users (step_world s))) (trace scenario init) =
  [ 1%nat; 1%nat; 2%nat; 2%nat; 2%nat ].
Proof. reflexivity. Qed.

(** ** Creation: success and failure *)

(** C3. For every non-empty string [e] that contains ['@'] and every string
    [n], the empty one included, [create_user(e, n)] returns, in whatever
    state the directory is, and the [User] it returns has [email] [e] and
    [name] [n]. *)
Theorem create_user_succeeds
  (e n : string) (now : datetime) (w : world) :
  e <> "" -> has_at e ->
  exists (r : ref) (w' : world),
    UserService.create_user e n now w = (inr r, w') /\
    getattr user.email r w' = (inr e, w') /\
    getattr user.name r w' = (inr n, w').
Proof.
  intros He Hat.
  pose proof (post_init_ok (Z.of_nat (length (_users w)) + 1) e n now He Hat)
    as Hv.
  set (u := user.mkUser (Z.of_nat (length (_users w)) + 1) e n now) in *.
  set (w' := World (heap w ++ [u]) (_users w ++ [length (heap w)])).
  assert (Hu : heap w' !! length (heap w) = Some u) by apply lookup_snoc.
  exists (length (heap w)), w'.
  split; [apply create_user_returns, Hv|].
  split; rewrite (getattr_valid _ _ _ _ Hu); reflexivity.
Qed.

Lemma create_user_succeeds_witness :
  "a@b.com" <> "" /\ has_at "a@b.com" /\
  exists (r : ref) (w' : world),
    UserService.create_user "a@b.com" "" 1000 init = (inr r, w') /\
    getattr user.email r w' = (inr "a@b.com", w') /\
    getattr user.name r w' = (inr "", w').
Proof.
  assert (H1 : "a@b.com" <> "") by discriminate.
  assert (H2 : has_at "a@b.com") by (vm_compute; tauto).
  split; [exact H1|]. split; [exact H2|].
  exact (create_user_succeeds "a@b.com" "" 1000 init H1 H2).
Defined.

(** C4. With the empty email, for every name, constructing a [User] raises
    the missing-email error, directly and through [create_user].  The empty
    string has no ['@'] either, so the second check would reject it too: it
    is the order of the checks that makes the error the missing-email one and
    not the invalid-format one. *)
Theorem empty_email_is_missing_email
  (i : Z) (n : string) (t : datetime) (w : world) :
  User_new i "" n t w = (inl missing_email, w) /\
  UserService.create_user "" n t w = (inl missing_email, w) /\
  str_in "@" "" = false /\
  missing_email <> invalid_email_format.
Proof.
  split; [now apply User_new_raises|].
  split; [now apply create_user_raises|].
  split; [reflexivity | discriminate].
Qed.

(** C5. For every non-empty email without ['@'] and every name, constructing
    a [User] raises the invalid-email-format error, directly and through
    [create_user]. *)
Theorem no_at_is_invalid_email_format
  (i : Z) (e n : string) (t : datetime) (w : world) :
  e <> "" -> ~ has_at e ->
  User_new i e n t w = (inl invalid_email_format, w) /\
  UserService.create_user e n t w = (inl invalid_email_format, w).
Proof.
  intros He Hat. split.
  - now apply User_new_raises, post_init_no_at.
  - now apply create_user_raises, post_init_no_at.
Qed.

Lemma no_at_is_invalid_email_format_witness :
  "carol" <> "" /\ ~ has_at "carol" /\
  User_new 7 "carol" "Carol" 2000 init = (inl invalid_email_format, init) /\
  UserService.create_user "carol" "Carol" 2000 init =
  (inl invalid_email_format, init).
Proof.
  assert (H1 : "carol" <> "") by discriminate.
  assert (H2 : ~ has_at "carol").
  { vm_compute. intros H.
    repeat (destruct H as [H|H]; [discriminate H|]). exact H. }
  split; [exact H1|]. split; [exact H2|].
  exact (no_at_is_invalid_email_format 7 "carol" "Carol" 2000 init H1 H2).
Defined.

(** C6. In every state and for every input, when [create_user] raises, the
    error is the one the construction of the [User] raised, with the id that
    the call computed, and it is one of the two validation errors; the store
    after the call is the store before it: nothing was appended, and the next
    call computes the same id again. *)
Theorem create_user_failure_changes_nothing
  (e n : string) (now : datetime) (w w' : world) (err : exn) :
  UserService.create_user e n now w = (inl err, w') ->
  User_new (Z.of_nat (length (_users w)) + 1) e n now w = (inl err, w) /\
  (err = missing_email \/ err = invalid_email_format) /\
  w' = w /\
  _users w' = _users w /\
  Z.of_nat (length (_users w')) + 1 = Z.of_nat (length (_users w)) + 1.
Proof.
  intros H.
  destruct (create_user_cases e n now w) as [(err' & Hv & E)|(_ & E)];
    rewrite E in H; [|discriminate H].
  injection H as -> ->. split; [now apply User_new_raises|].
  split; [|auto].
  unfold user.__post_init__ in Hv. simpl in Hv.
  unfold missing_email, invalid_email_format.
  destruct (negb (str_bool e)); [left; congruence|].
  destruct (negb (str_in "@" e)); [right; congruence | discriminate Hv].
Qed.

Lemma create_user_failure_changes_nothing_witness :
  UserService.create_user "carol" "Carol" 2000 alice_only =
    (inl invalid_email_format, alice_only) /\
  User_new (Z.of_nat (length (_users alice_only)) + 1) "carol" "Carol" 2000
    alice_only = (inl invalid_email_format, alice_only) /\
  _users alice_only = _users alice_only.
Proof.
  assert (H : UserService.create_user "carol" "Carol" 2000 alice_only =
              (inl invalid_email_format, alice_only)) by reflexivity.
  split; [exact H|].
  destruct (create_user_failure_changes_nothing _ _ _ _ _ _ H)
    as (H1 & _ & _ & H2 & _).
  split; [exact H1 | exact H2].
Defined.

(** ** Lookup *)

(** C9. In every state and for every integer [user_id], [get_user_by_id]
    returns and raises nothing; what it returns is the first record of the
    list, in insertion order, whose [id] is [user_id], and [None] when no
    record has that id; the store after the call is the store before it. *)
Theorem get_user_by_id_first_match (w : world) (user_id : Z) :
  wf w ->
  exists res : option ref,
    UserService.get_user_by_id user_id w = (inr res, w) /\
    first_with_id w user_id res.
Proof.
  intros Hwf. exists (List.find (matches w user_id) (_users w)).
  split; [now apply get_user_by_id_find | apply find_matches_first].
Qed.

Lemma get_user_by_id_first_match_witness :
  wf twins /\
  exists res : option ref,
    UserService.get_user_by_id 7 twins = (inr res, twins) /\
    first_with_id twins 7 res.
Proof.
  assert (H : wf twins).
  { unfold wf, twins. simpl. repeat constructor. }
  split; [exact H | exact (get_user_by_id_first_match twins 7 H)].
Defined.

Example get_user_by_id_twins :
  UserService.get_user_by_id 7 twins = (inr (Some 0%nat), twins) /\
  UserService.get_user_by_id 6 twins = (inr None, twins).
Proof. split; reflexivity. Qed.

(** ** Ids *)

(** The ids [create_user] hands out continue from the length of the list. *)
Lemma created_ids_from (cs : list call) (w : world) :
  map (fun p => id_of (snd p) (fst p)) (created (trace cs w)) =
  map (fun k => Some (Z.of_nat k))
      (seq (S (length (_users w))) (length (created (trace cs w)))).
Proof.
  revert w. induction cs as [|c cs IH]; intros w; simpl; [reflexivity|].
  pose proof (perform_inv c w) as H.
  destruct c as [e n now|i|i e n t]; cbv beta iota zeta in H.
  - destruct H as [(err & _ & ->)|(_ & ->)]; simpl; [apply IH|].
    f_equal.
    + apply id_of_Some. eexists.
      split; [apply lookup_snoc | simpl; lia].
    + rewrite IH. simpl. rewrite length_app. simpl.
      now replace (length (_users w) + 1)%nat with (S (length (_users w)))
        by lia.
  - destruct H as (o & ->). simpl. destruct o as [err|v]; apply IH.
  - destruct H as [(err & _ & ->)|(_ & ->)]; simpl; [apply IH|].
    exact (IH (World _ (_users w))).
Qed.

Lemma stored_ids_numbered (w : world) :
  numbered w ->
  stored_ids w =
  map (fun k => Some (Z.of_nat k)) (seq 1 (length (_users w))).
Proof.
  intros Hn. apply list_eq. intros i. unfold stored_ids.
  rewrite !list_lookup_fmap.
  destruct (_users w !! i) as [r|] eqn:Hi; simpl.
  - apply lookup_lt_Some in Hi as Hlt.
    rewrite lookup_seq_lt by exact Hlt. simpl.
    rewrite (Hn _ _ Hi). do 2 f_equal. lia.
  - apply lookup_ge_None in Hi.
    now rewrite lookup_seq_ge by exact Hi.
Qed.

(** C2. Whatever else a program does in between (failed creations,
    lookups, records built directly), the ids of the users that its
    successful [create_user] calls return, read when each call returns, are
    [1, 2, ..., n] in the order of the calls: the first has id 1, the second
    id 2, the n-th id n. *)
Theorem create_user_ids_count_from_one (cs : list call) :
  map (fun p => id_of (snd p) (fst p)) (created (trace cs init)) =
  map (fun k => Some (Z.of_nat k))
      (seq 1 (length (created (trace cs init)))).
Proof. apply (created_ids_from cs init). Qed.

(** C1. After any sequence of calls on a fresh directory: for every user
    that a [create_user] call of the sequence returned, [get_user_by_id] of
    its id returns that very object, and the object still has the fields it
    had when it was returned; for every id that no [create_user] call of the
    sequence gave to the user it returned, [get_user_by_id] returns [None]. *)
Theorem get_user_by_id_after_create (cs : list call) :
  (forall (r : ref) (w' : world),
     (r, w') ∈ created (trace cs init) ->
     exists u : User,
       heap w' !! r = Some u /\
       heap (final cs init) !! r = Some u /\
       UserService.get_user_by_id (user.id u) (final cs init) =
       (inr (Some r), final cs init)) /\
  (forall i : Z,
     (forall (r : ref) (w' : world),
        (r, w') ∈ created (trace cs init) -> id_of w' r <> Some i) ->
     UserService.get_user_by_id i (final cs init) =
     (inr None, final cs init)).
Proof.
  pose proof (final_numbered cs init numbered_init) as Hn.
  pose proof (numbered_wf _ Hn) as Hwf.
  split.
  - intros r w' Hin.
    destruct (created_inv _ _ _ _ Hin) as (i & u & Hu' & Hu & _ & Hi & _).
    exists u. split; [exact Hu'|]. split; [exact Hu|].
    rewrite (get_user_by_id_find _ _ Hwf), (find_numbered _ _ Hn).
    pose proof (Hn _ _ Hi) as Hid. apply id_of_Some in Hid.
    destruct Hid as (u0 & Hu0 & Hid). rewrite Hu in Hu0.
    injection Hu0 as <-. rewrite Hid.
    apply lookup_lt_Some in Hi as Hlt.
    rewrite decide_True by lia.
    replace (Z.to_nat (Z.of_nat i + 1 - 1)) with i by lia.
    now rewrite Hi.
  - intros i Hnever.
    rewrite (get_user_by_id_find _ _ Hwf), (find_numbered _ _ Hn).
    destruct (decide (1 <= i <= Z.of_nat (length (_users (final cs init)))))
      as [Hi|]; [|reflexivity].
    exfalso.
    destruct (lookup_lt_is_Some_2 (_users (final cs init)) (Z.to_nat (i - 1)))
      as [r Hr]; [lia|].
    pose proof (Hn _ _ Hr) as Hid.
    replace (Z.of_nat (Z.to_nat (i - 1)) + 1) with i in Hid by lia.
    apply list_elem_of_lookup_2 in Hr.
    rewrite users_created in Hr. simpl in Hr.
    apply list_elem_of_fmap in Hr. destruct Hr as ([r0 w'] & -> & Hin).
    simpl in Hid.
    destruct (created_inv _ _ _ _ Hin) as (j & u & Hu' & Hu & _).
    apply (Hnever _ _ Hin).
    apply id_of_Some in Hid. destruct Hid as (u0 & Hu0 & Hid).
    rewrite Hu in Hu0. injection Hu0 as <-.
    apply id_of_Some. now exists u.
Qed.

Lemma get_user_by_id_after_create_witness :
  (0%nat, alice_only) ∈ created (trace scenario init) /\
  (forall (r : ref) (w' : world),
     (r, w') ∈ created (trace scenario init) -> id_of w' r <> Some 99) /\
  (exists u : User,
     heap alice_only !! 0%nat = Some u /\
     heap (final scenario init) !! 0%nat = Some u /\
     UserService.get_user_by_id (user.id u) (final scenario init) =
     (inr (Some 0%nat), final scenario init)) /\
  UserService.get_user_by_id 99 (final scenario init) =
  (inr None, final scenario init).
Proof.
  assert (H1 : (0%nat, alice_only) ∈ created (trace scenario init)).
  { vm_compute. apply list_elem_of_here. }
  assert (H2 : forall (r : ref) (w' : world),
             (r, w') ∈ created (trace scenario init) ->
             id_of w' r <> Some 99).
  { intros r w' Hin. vm_compute in Hin.
    apply elem_of_cons in Hin. destruct Hin as [[= -> ->]|Hin];
      [vm_compute; discriminate|].
    apply elem_of_cons in Hin. destruct Hin as [[= -> ->]|Hin];
      [vm_compute; discriminate|].
    inversion Hin. }
  split; [exact H1|]. split; [exact H2|].
  destruct (get_user_by_id_after_create scenario) as [Ha Hb].
  split; [exact (Ha _ _ H1) | exact (Hb 99 H2)].
Defined.

(** C8. In every state that a sequence of [create_user] and
    [get_user_by_id] calls (and of direct constructions) reaches from the
    fresh directory, every stored record has an id and these ids are pairwise
    distinct; and whatever calls follow, every record that exists keeps its
    id and the stored records stay stored, in the same places. *)
Theorem ids_unique_and_stable (cs more : list call) :
  (exists ids : list Z,
     stored_ids (final cs init) = map Some ids /\ NoDup ids) /\
  (forall (r : ref) (i : Z),
     id_of (final cs init) r = Some i ->
     id_of (final (cs ++ more) init) r = Some i) /\
  _users (final cs init) `prefix_of` _users (final (cs ++ more) init).
Proof.
  pose proof (final_numbered cs init numbered_init) as Hn.
  split; [|split].
  - exists (map Z.of_nat (seq 1 (length (_users (final cs init))))).
    split.
    + rewrite (stored_ids_numbered _ Hn), map_map. reflexivity.
    + apply NoDup_fmap_2; [intros x y; apply Nat2Z.inj | apply NoDup_seq].
  - intros r i H. rewrite final_app. now apply final_keeps_id.
  - rewrite final_app. apply final_grows.
Qed.

Lemma ids_unique_and_stable_witness :
  id_of alice_only 0%nat = Some 1 /\
  id_of (final scenario init) 0%nat = Some 1.
Proof.
  assert (H : id_of alice_only 0%nat = Some 1) by reflexivity.
  split; [exact H|].
  destruct (ids_unique_and_stable
              [call_create_user "a@b.com" "Alice" 1000]
              (tl scenario)) as (_ & Hkeep & _).
  exact (Hkeep 0%nat 1 H).
Defined.

(** C10. In every reachable state, with [N] records stored, the record at
    place [i] of the list, counting from 1, has id [i]; so
    [get_user_by_id(k)] returns [None] for [k < 1] and for [k > N], and for
    [1 <= k <= N] it returns the record at place [k], whose id is [k]. *)
Theorem ids_are_places (cs : list call) :
  (forall (i : nat) (r : ref),
     _users (final cs init) !! i = Some r ->
     id_of (final cs init) r = Some (Z.of_nat (S i))) /\
  (forall k : Z,
     k < 1 \/ Z.of_nat (length (_users (final cs init))) < k ->
     UserService.get_user_by_id k (final cs init) =
     (inr None, final cs init)) /\
  (forall k : Z,
     1 <= k <= Z.of_nat (length (_users (final cs init))) ->
     exists r : ref,
       _users (final cs init) !! Z.to_nat (k - 1) = Some r /\
       id_of (final cs init) r = Some k /\
       UserService.get_user_by_id k (final cs init) =
       (inr (Some r), final cs init)).
Proof.
  pose proof (final_numbered cs init numbered_init) as Hn.
  pose proof (numbered_wf _ Hn) as Hwf.
  split; [|split].
  - intros i r Hi. rewrite (Hn _ _ Hi). f_equal. lia.
  - intros k Hk.
    rewrite (get_user_by_id_find _ _ Hwf), (find_numbered _ _ Hn).
    now rewrite decide_False by lia.
  - intros k Hk.
    destruct (lookup_lt_is_Some_2 (_users (final cs init)) (Z.to_nat (k - 1)))
      as [r Hr]; [lia|].
    exists r. split; [exact Hr|]. split.
    + rewrite (Hn _ _ Hr). f_equal. lia.
    + rewrite (get_user_by_id_find _ _ Hwf), (find_numbered _ _ Hn).
      rewrite decide_True by exact Hk. now rewrite Hr.
Qed.

Lemma ids_are_places_witness :
  _users (final scenario init) !! 1%nat = Some 1%nat /\
  (0 < 1 \/ Z.of_nat (length (_users (final scenario init))) < 0) /\
  1 <= 2 <= Z.of_nat (length (_users (final scenario init))) /\
  id_of (final scenario init) 1%nat = Some 2 /\
  UserService.get_user_by_id 0 (final scenario init) =
    (inr None, final scenario init) /\
  exists r : ref,
    _users (final scenario init) !! Z.to_nat (2 - 1) = Some r /\
    id_of (final scenario init) r = Some 2 /\
    UserService.get_user_by_id 2 (final scenario init) =
    (inr (Some r), final scenario init).
Proof.
  assert (H1 : _users (final scenario init) !! 1%nat = Some 1%nat)
    by reflexivity.
  assert (H2 : 0 < 1 \/ Z.of_nat (length (_users (final scenario init))) < 0)
    by (left; lia).
  assert (H3 : 1 <= 2 <= Z.of_nat (length (_users (final scenario init))))
    by (simpl; lia).
  destruct (ids_are_places scenario) as (Ha & Hb & Hc).
  split; [exact H1|]. split; [exact H2|]. split; [exact H3|].
  split; [exact (Ha _ _ H1)|].
  split; [exact (Hb 0 H2) | exact (Hc 2 H3)].
Defined.

(** ** Writes to a record *)

Lemma setattr_valid (r : ref) (a : attr) (u : User) (w : world) :
  heap w !! r = Some u ->
  setattr r a w =
  (inr tt, World (<[r := assign a u]> (heap w)) (_users w)).
Proof. intros H. unfold setattr, bind. now rewrite (deref_valid _ _ _ H). Qed.

(** C7, as stated, fails: the caller that got Alice's record from
    [create_user] assigns the empty string to its [email]; the assignment
    returns, the record that the directory finds under id 1 now has the empty
    email, an email that the construction rejects. *)
Lemma User_email_overwritten :
  map step_outcome (trace [call_create_user "a@b.com" "Alice" 1000] init) =
    [ inr (val_user 0%nat) ] /\
  getattr user.email 0%nat alice_only = (inr "a@b.com", alice_only) /\
  setattr 0%nat (attr_email "") alice_only = (inr tt, alice_blanked) /\
  UserService.get_user_by_id 1 alice_blanked =
    (inr (Some 0%nat), alice_blanked) /\
  getattr user.email 0%nat alice_blanked = (inr "", alice_blanked) /\
  User_new 1 "" "Alice" 1000 init = (inl missing_email, init) /\
  ~ not_externally_writable.
Proof.
  repeat (split; [reflexivity|]).
  intros H.
  specialize (H alice_only 0%nat (attr_email "")
                (user.mkUser 1 "a@b.com" "Alice" 1000) eq_refl).
  discriminate H.
Qed.

(** C7, amended.  No call of the directory and no construction of another
    record changes a record that exists: after any sequence of such calls its
    four fields are what they were.  The four fields are readable.  They are
    also writable by whoever holds the reference: an assignment to any field,
    with any value, returns, stores the value and runs no check, so [email]
    is not validated again; it changes that one record and nothing else. *)
Theorem User_changes_only_by_assignment (w : world) (r : ref) (u : User) :
  heap w !! r = Some u ->
  (forall cs : list call, heap (final cs w) !! r = Some u) /\
  (getattr user.id r w = (inr (user.id u), w) /\
   getattr user.email r w = (inr (user.email u), w) /\
   getattr user.name r w = (inr (user.name u), w) /\
   getattr user.created_at r w = (inr (user.created_at u), w)) /\
  (forall a : attr,
     exists w' : world,
       setattr r a w = (inr tt, w') /\
       heap w' !! r = Some (assign a u) /\
       (forall r' : ref, r' <> r -> heap w' !! r' = heap w !! r') /\
       _users w' = _users w).
Proof.
  intros H. split; [|split].
  - intros cs. now apply final_keeps.
  - split; [|split; [|split]]; exact (getattr_valid _ _ _ _ H).
  - intros a. eexists. split; [exact (setattr_valid _ a _ _ H)|]. simpl.
    split; [|split; [|reflexivity]].
    + apply list_lookup_insert_eq. eapply lookup_lt_Some; exact H.
    + intros r' Hne. now apply list_lookup_insert_ne.
Qed.

(** What the invariant of the directory owes to callers that leave [id]
    alone: once the holder of Alice's record runs [user.id = 5], the lookup
    of 1 finds nothing and the lookup of 5 finds her. *)
Example User_id_overwritten :
  exists w' : world,
    setattr 0%nat (attr_id 5) alice_only = (inr tt, w') /\
    UserService.get_user_by_id 1 w' = (inr None, w') /\
    UserService.get_user_by_id 5 w' = (inr (Some 0%nat), w').
Proof. eexists. repeat split. Qed.

Lemma User_changes_only_by_assignment_witness :
  heap alice_only !! 0%nat = Some (user.mkUser 1 "a@b.com" "Alice" 1000) /\
  heap (final (tl scenario) alice_only) !! 0%nat =
    Some (user.mkUser 1 "a@b.com" "Alice" 1000) /\
  exists w' : world,
    setattr 0%nat (attr_email "") alice_only = (inr tt, w') /\
    heap w' !! 0%nat = Some (user.mkUser 1 "" "Alice" 1000).
Proof.
  assert (H : heap alice_only !! 0%nat =
              Some (user.mkUser 1 "a@b.com" "Alice" 1000)) by reflexivity.
  split; [exact H|].
  destruct (User_changes_only_by_assignment _ _ _ H) as (Hcalls & _ & Hset).
  split; [exact (Hcalls (tl scenario))|].
  destruct (Hset (attr_email "")) as (w' & E & Hw' & _).
  exists w'. split; [exact E | exact Hw'].
Defined.

(** * Further properties of the code *)

(** ** The check and the calls that pass it *)

Lemma email_ok_true (e : string) :
  email_ok e = true <-> e <> "" /\ has_at e.
Proof.
  unfold email_ok. rewrite andb_true_iff, str_in_at.
  destruct (str_bool e) eqn:Hb.
  - split; intros [_ H]; split; try reflexivity; try exact H.
    intros ->. discriminate Hb.
  - apply str_bool_empty in Hb. split; [intros [H _]; discriminate H|].
    intros [H _]. contradiction.
Qed.

Lemma post_init_email_ok (u : User) :
  user.__post_init__ u = inr tt <-> email_ok (user.email u) = true.
Proof.
  unfold user.__post_init__, email_ok.
  destruct (str_bool (user.email u)); simpl; [|split; discriminate].
  destruct (str_in "@" (user.email u)); simpl; split;
    solve [reflexivity | discriminate].
Qed.

Lemma post_init_mk (i : Z) (e n : string) (t : datetime) :
  user.__post_init__ (user.mkUser i e n t) = inr tt <-> email_ok e = true.
Proof. apply post_init_email_ok. Qed.

Lemma post_init_valid (u : User) :
  user.__post_init__ u = inr tt -> valid_record u.
Proof. intros H. now apply email_ok_true, post_init_email_ok. Qed.

(** A call that is not effective leaves the store as it found it. *)
Lemma perform_ineffective (c : call) (w : world) :
  effective c = false -> snd (perform c w) = w.
Proof.
  intros He. pose proof (perform_inv c w) as H.
  destruct c as [e n now|i|i e n t]; cbv beta iota zeta in H.
  - destruct H as [(err & _ & ->)|(Hv & _)]; [reflexivity|].
    apply post_init_email_ok in Hv. simpl in *. congruence.
  - destruct H as (o & ->). reflexivity.
  - destruct H as [(err & _ & ->)|(Hv & _)]; [reflexivity|].
    apply post_init_email_ok in Hv. simpl in *. congruence.
Qed.

(** X8. Lookups and constructions whose email is rejected leave no mark:
    a program ends in the very store in which it ends once all of them are
    struck from it. *)
Theorem rejected_calls_and_lookups_leave_no_mark
  (cs : list call) (w : world) :
  final (filter effective cs) w = final cs w.
Proof.
  revert w. induction cs as [|c cs IH]; intros w; [reflexivity|].
  rewrite filter_cons. destruct (decide (effective c)) as [He|He].
  - simpl. apply IH.
  - simpl. rewrite perform_ineffective; [apply IH|].
    destruct (effective c); [exfalso; apply He; exact I | reflexivity].
Qed.

(** X1. Every [User] object that exists after any program of calls has an
    email that is non-empty and contains ['@']: no construction, through the
    directory or direct, lets another one into the store. *)
Theorem constructed_users_are_valid (cs : list call) (w : world) :
  Forall valid_record (heap w) ->
  Forall valid_record (heap (final cs w)).
Proof.
  revert w. induction cs as [|c cs IH]; intros w Hw; simpl; [exact Hw|].
  apply IH. pose proof (perform_inv c w) as H.
  destruct c as [e n now|i|i e n t]; cbv beta iota zeta in H.
  - destruct H as [(err & _ & ->)|(Hv & ->)]; [exact Hw|]. simpl.
    apply Forall_app. split; [exact Hw|].
    constructor; [now apply post_init_valid | constructor].
  - destruct H as (o & ->). exact Hw.
  - destruct H as [(err & _ & ->)|(Hv & ->)]; [exact Hw|]. simpl.
    apply Forall_app. split; [exact Hw|].
    constructor; [now apply post_init_valid | constructor].
Qed.

Lemma constructed_users_are_valid_witness :
  Forall valid_record (heap init) /\
  Forall valid_record (heap (final scenario init)).
Proof.
  assert (H : Forall valid_record (heap init)) by constructor.
  split; [exact H | exact (constructed_users_are_valid scenario init H)].
Defined.

(** ** What the directory holds *)

Lemma records_grow (w : world) (hs : list User) :
  wf w ->
  map (fun r => (heap w ++ hs)%list !! r) (_users w) = records w.
Proof.
  intros Hw. unfold records. apply map_ext_Forall.
  eapply Forall_impl; [exact Hw|].
  intros r Hr. simpl in Hr. now apply lookup_app_l.
Qed.

Lemma length_number_from (k : Z) (l : list (string * string * datetime)) :
  length (number_from k l) = length l.
Proof.
  revert k. induction l as [|[[e n] t] l IH]; intros k; simpl; [reflexivity|].
  now rewrite IH.
Qed.

Lemma records_from (cs : list call) (w : world) :
  wf w ->
  records (final cs w) =
  (records w ++
   map Some (number_from (Z.of_nat (length (_users w)) + 1) (accepted cs)))%list.
Proof.
  revert w. induction cs as [|c cs IH]; intros w Hw; simpl.
  - now rewrite app_nil_r.
  - pose proof (wf_perform c w Hw) as Hw'.
    pose proof (perform_inv c w) as H.
    destruct c as [e n now|i|i e n t]; cbv beta iota zeta in H.
    + destruct H as [(err & Hv & E)|(Hv & E)].
      * rewrite E in *. simpl.
        destruct (email_ok e) eqn:He; [|now apply IH].
        apply (post_init_mk (Z.of_nat (length (_users w)) + 1) e n now) in He.
        congruence.
      * apply post_init_mk in Hv. rewrite Hv.
        rewrite E in *. simpl in *. rewrite (IH _ Hw'). simpl.
        unfold records at 1. simpl. rewrite map_app. simpl.
        rewrite lookup_snoc, (records_grow _ _ Hw), <- app_assoc. simpl.
        rewrite length_app. simpl.
        now replace (Z.of_nat (length (_users w) + 1) + 1)
          with (Z.of_nat (length (_users w)) + 1 + 1) by lia.
    + destruct H as (o & E). rewrite E in *. simpl. now apply IH.
    + destruct H as [(err & _ & E)|(_ & E)]; rewrite E in *; simpl in *.
      * now apply IH.
      * rewrite (IH _ Hw'). simpl. f_equal.
        unfold records at 1. simpl. now apply records_grow.
Qed.

(** X2. After any program on a fresh directory, the stored records are the
    arguments of the [create_user] calls whose email passes the check, in
    the order of the calls, each with the clock reading of its call as
    [created_at] and with ids 1, 2, 3, ...; lookups, rejected creations and
    records built directly add nothing and change nothing. *)
Theorem directory_holds_the_accepted_inputs (cs : list call) :
  records (final cs init) = map Some (number_from 1 (accepted cs)).
Proof. exact (records_from cs init wf_init). Qed.

(** X3. The list of the directory is the references that the [create_user]
    calls returned, in the order of the calls and with nothing else; its
    length is the number of [create_user] calls that returned, and that is
    the number of those calls whose email passes the check. *)
Theorem directory_lists_what_create_user_returned (cs : list call) :
  _users (final cs init) = map fst (created (trace cs init)) /\
  length (_users (final cs init)) = length (created (trace cs init)) /\
  length (created (trace cs init)) = length (accepted cs).
Proof.
  assert (H : _users (final cs init) = map fst (created (trace cs init)))
    by apply (users_created cs init).
  split; [exact H|]. split; [now rewrite H, length_map|].
  rewrite <- (length_map fst), <- H.
  rewrite <- (length_map (fun r => heap (final cs init) !! r)).
  change (length (records (final cs init)) = length (accepted cs)).
  rewrite (records_from cs init wf_init). simpl.
  now rewrite length_map, length_number_from.
Qed.

Lemma find_append {A : Type} (f : A -> bool) (l1 l2 : list A) :
  List.find f (l1 ++ l2) =
  match List.find f l1 with
  | Some x => Some x
  | None => List.find f l2
  end.
Proof.
  induction l1 as [|a l1 IH]; simpl; [reflexivity|].
  now destruct (f a).
Qed.

Lemma find_agree {A : Type} (f g : A -> bool) (l : list A) :
  Forall (fun x => f x = g x) l -> List.find f l = List.find g l.
Proof.
  induction 1 as [|a l Ha _ IH]; simpl; [reflexivity|].
  rewrite Ha, IH. reflexivity.
Qed.

(** X4. A lookup only ever returns a record that a [create_user] call
    returned, and the id it is asked for is the id that record had when it
    was returned: a [User] built directly is never found, whatever its id. *)
Theorem get_user_by_id_finds_only_created
  (cs : list call) (k : Z) (r : ref) :
  UserService.get_user_by_id k (final cs init) =
    (inr (Some r), final cs init) ->
  exists w' : world,
    (r, w') ∈ created (trace cs init) /\ id_of w' r = Some k.
Proof.
  intros Hget.
  pose proof (final_numbered cs init numbered_init) as Hn.
  pose proof (numbered_wf _ Hn) as Hwf.
  rewrite (get_user_by_id_find _ _ Hwf) in Hget.
  injection Hget as Hfind.
  pose proof (find_first (matches (final cs init) k) (_users (final cs init)))
    as H.
  rewrite Hfind in H. destruct H as (before & after & E & Hm & _).
  apply matches_true, id_of_Some in Hm. destruct Hm as (u & Hu & Hid).
  assert (Hin : r ∈ _users (final cs init)).
  { rewrite E. apply elem_of_app. right. apply list_elem_of_here. }
  rewrite users_created in Hin. simpl in Hin.
  apply list_elem_of_fmap in Hin. destruct Hin as ([r0 w'] & -> & Hin).
  exists w'. split; [exact Hin|]. simpl in *.
  destruct (created_inv _ _ _ _ Hin) as (j & u' & Hu' & Hfin & _).
  rewrite Hu in Hfin. injection Hfin as <-.
  apply id_of_Some. now exists u.
Qed.

Lemma get_user_by_id_finds_only_created_witness :
  UserService.get_user_by_id 1
    (final (call_User 1 "d@e" "Dan" 5 :: scenario) init) =
    (inr (Some 1%nat), final (call_User 1 "d@e" "Dan" 5 :: scenario) init) /\
  exists w' : world,
    (1%nat, w') ∈ created (trace (call_User 1 "d@e" "Dan" 5 :: scenario) init)
    /\ id_of w' 1%nat = Some 1.
Proof.
  assert (H : UserService.get_user_by_id 1
                (final (call_User 1 "d@e" "Dan" 5 :: scenario) init) =
              (inr (Some 1%nat),
               final (call_User 1 "d@e" "Dan" 5 :: scenario) init))
    by reflexivity.
  split; [exact H|].
  exact (get_user_by_id_finds_only_created _ _ _ H).
Defined.

(** X5. [UserService.__init__] takes nothing from the store it runs in:
    however many [User] objects exist and whatever the list held before, the
    objects stay, every lookup on the new directory returns [None], and the
    ids that [create_user] then hands out are 1, 2, ..., n. *)
Theorem init_starts_an_empty_directory (w : world) (cs : list call) :
  heap (snd (UserService.__init__ w)) = heap w /\
  (forall k : Z,
     UserService.get_user_by_id k (snd (UserService.__init__ w)) =
     (inr None, snd (UserService.__init__ w))) /\
  map (fun p => id_of (snd p) (fst p))
      (created (trace cs (snd (UserService.__init__ w)))) =
  map (fun k => Some (Z.of_nat k))
      (seq 1 (length (created (trace cs (snd (UserService.__init__ w)))))).
Proof.
  split; [reflexivity|]. split; [reflexivity|].
  apply (created_ids_from cs (snd (UserService.__init__ w))).
Qed.

(** ** Creation followed by lookup *)

Lemma matches_grow (w : world) (hs : list User) (us : list ref) (k : Z) :
  wf w ->
  Forall (fun r => matches (World (heap w ++ hs) us) k r = matches w k r)
         (_users w).
Proof.
  intros Hw. eapply Forall_impl; [exact Hw|].
  intros r Hr. simpl in Hr. unfold matches, id_of. simpl.
  now rewrite lookup_app_l.
Qed.

(** X6. In every store, after [create_user] returned, the lookup of any id
    returns what it returned before the call when that was a record; when it
    was [None], it returns the new record for the id the call computed, the
    length of the list plus one, and [None] for every other id.  So a
    creation never changes what a lookup finds, and it is found itself only
    under an id that no stored record had. *)
Theorem lookup_after_create_user
  (e n : string) (now : datetime) (w w' : world) (r : ref) (k : Z) :
  wf w ->
  UserService.create_user e n now w = (inr r, w') ->
  exists old : option ref,
    UserService.get_user_by_id k w = (inr old, w) /\
    UserService.get_user_by_id k w' =
    (inr (match old with
          | Some r0 => Some r0
          | None =>
              if Z.eqb (Z.of_nat (length (_users w)) + 1) k
              then Some r else None
          end), w').
Proof.
  intros Hw Hc.
  destruct (create_user_cases e n now w) as [(err & _ & E)|(_ & E)];
    rewrite E in Hc; [discriminate Hc|].
  injection Hc as <- <-.
  set (u := user.mkUser (Z.of_nat (length (_users w)) + 1) e n now).
  assert (Hw' : wf (World (heap w ++ [u]) (_users w ++ [length (heap w)]))).
  { apply wf_grow; [exact Hw|].
    repeat constructor. rewrite length_app. simpl. lia. }
  exists (List.find (matches w k) (_users w)).
  split; [now apply get_user_by_id_find|].
  rewrite (get_user_by_id_find _ _ Hw'). simpl.
  rewrite find_append, (find_agree _ _ _ (matches_grow w [u] _ k Hw)).
  destruct (List.find (matches w k) (_users w)); [reflexivity|].
  simpl. unfold matches at 1, id_of. simpl. rewrite lookup_snoc. reflexivity.
Qed.

Lemma lookup_after_create_user_witness :
  wf alice_as_two /\
  UserService.create_user "bob@x.com" "Bob" 3000 alice_as_two =
    (inr 1%nat, snd (UserService.create_user "bob@x.com" "Bob" 3000
                       alice_as_two)) /\
  exists old : option ref,
    UserService.get_user_by_id 2 alice_as_two = (inr old, alice_as_two) /\
    UserService.get_user_by_id 2
      (snd (UserService.create_user "bob@x.com" "Bob" 3000 alice_as_two)) =
    (inr (match old with
          | Some r0 => Some r0
          | None =>
              if Z.eqb (Z.of_nat (length (_users alice_as_two)) + 1) 2
              then Some 1%nat else None
          end),
     snd (UserService.create_user "bob@x.com" "Bob" 3000 alice_as_two)).
Proof.
  assert (H1 : wf alice_as_two) by (repeat constructor).
  assert (H2 : UserService.create_user "bob@x.com" "Bob" 3000 alice_as_two =
               (inr 1%nat,
                snd (UserService.create_user "bob@x.com" "Bob" 3000
                       alice_as_two))) by reflexivity.
  split; [exact H1|]. split; [exact H2|].
  exact (lookup_after_create_user _ _ _ _ _ _ 2 H1 H2).
Defined.

(** The new record is shadowed when its id is taken: in [alice_as_two] the
    second creation computes id 2, and the lookup of 2 still returns Alice. *)
Example create_user_shadowed :
  exists w' : world,
    UserService.create_user "bob@x.com" "Bob" 3000 alice_as_two =
      (inr 1%nat, w') /\
    id_of w' 1%nat = Some 2 /\
    UserService.get_user_by_id 2 w' = (inr (Some 0%nat), w').
Proof.
  exists (snd (UserService.create_user "bob@x.com" "Bob" 3000 alice_as_two)).
  split; [reflexivity | split; reflexivity].
Qed.

(** A directory built in a store that already has objects and a used list
    numbers from 1 again. *)
Example init_in_used_store :
  map step_outcome
      (trace [call_get_user_by_id 42; call_create_user "a@b.com" "Alice" 9]
             (snd (UserService.__init__ used))) =
    [ inr (val_optional None); inr (val_user 2%nat) ] /\
  id_of (final [call_create_user "a@b.com" "Alice" 9]
               (snd (UserService.__init__ used))) 2%nat = Some 1.
Proof. split; reflexivity. Qed.

(** X7. The directory does not compare emails: in every store, two
    [create_user] calls in a row with the same email that passes the check,
    and the same name, both return; they return two different objects, both
    stored, the second right after the first, with that same email and with
    ids that differ by one. *)
Theorem create_user_accepts_a_repeated_email
  (e n : string) (t1 t2 : datetime) (w : world) :
  e <> "" -> has_at e ->
  exists (r1 r2 : ref) (w1 w2 : world),
    UserService.create_user e n t1 w = (inr r1, w1) /\
    UserService.create_user e n t2 w1 = (inr r2, w2) /\
    r1 <> r2 /\
    _users w2 = (_users w ++ [r1; r2])%list /\
    getattr user.email r1 w2 = (inr e, w2) /\
    getattr user.email r2 w2 = (inr e, w2) /\
    id_of w2 r1 = Some (Z.of_nat (length (_users w)) + 1) /\
    id_of w2 r2 = Some (Z.of_nat (length (_users w)) + 2).
Proof.
  intros He Hat.
  set (N := Z.of_nat (length (_users w))).
  set (u1 := user.mkUser (N + 1) e n t1).
  set (w1 := World (heap w ++ [u1]) (_users w ++ [length (heap w)])).
  set (u2 := user.mkUser (N + 2) e n t2).
  set (w2 := World (heap w1 ++ [u2]) (_users w1 ++ [length (heap w1)])).
  assert (E1 : UserService.create_user e n t1 w = (inr (length (heap w)), w1)).
  { apply create_user_returns, post_init_ok; assumption. }
  assert (E2 : UserService.create_user e n t2 w1 =
               (inr (length (heap w1)), w2)).
  { rewrite create_user_returns by (apply post_init_ok; assumption).
    unfold w2, u2, N. do 5 f_equal. simpl. rewrite length_app. simpl. lia. }
  assert (L1 : length (heap w1) = S (length (heap w))).
  { simpl. rewrite length_app. simpl. lia. }
  assert (H1 : heap w2 !! length (heap w) = Some u1).
  { simpl. rewrite lookup_app_l by (rewrite length_app; simpl; lia).
    apply lookup_snoc. }
  assert (H2 : heap w2 !! length (heap w1) = Some u2) by apply lookup_snoc.
  exists (length (heap w)), (length (heap w1)), w1, w2.
  split; [exact E1|]. split; [exact E2|]. split; [lia|].
  split; [simpl; now rewrite <- app_assoc|].
  split; [exact (getattr_valid _ _ _ _ H1)|].
  split; [exact (getattr_valid _ _ _ _ H2)|].
  split; apply id_of_Some; eexists; split; try eassumption; reflexivity.
Qed.

Lemma create_user_accepts_a_repeated_email_witness :
  "a@b.com" <> "" /\ has_at "a@b.com" /\
  exists (r1 r2 : ref) (w1 w2 : world),
    UserService.create_user "a@b.com" "Alice" 1 alice_only = (inr r1, w1) /\
    UserService.create_user "a@b.com" "Alice" 2 w1 = (inr r2, w2) /\
    r1 <> r2 /\
    _users w2 = (_users alice_only ++ [r1; r2])%list /\
    getattr user.email r1 w2 = (inr "a@b.com", w2) /\
    getattr user.email r2 w2 = (inr "a@b.com", w2) /\
    id_of w2 r1 = Some (Z.of_nat (length (_users alice_only)) + 1) /\
    id_of w2 r2 = Some (Z.of_nat (length (_users alice_only)) + 2).
Proof.
  assert (H1 : "a@b.com" <> "") by discriminate.
  assert (H2 : has_at "a@b.com") by (vm_compute; tauto).
  split; [exact H1|]. split; [exact H2|].
  exact (create_user_accepts_a_repeated_email "a@b.com" "Alice" 1 2
           alice_only H1 H2).
Defined.

(** ** Lookups and the other fields *)

Lemma id_of_setattr (r : ref) (a : attr) (w : world) (r' : ref) :
  writes_id a = false ->
  id_of (snd (setattr r a w)) r' = id_of w r'.
Proof.
  intros Ha. unfold setattr, bind, deref.
  destruct (heap w !! r) as [u|] eqn:Hu; [|reflexivity].
  unfold id_of. simpl.
  destruct (decide (r = r')) as [<-|Hne].
  - rewrite list_lookup_insert_eq by (eapply lookup_lt_Some; exact Hu).
    rewrite Hu. simpl. destruct a; simpl; solve [reflexivity | discriminate Ha].
  - now rewrite list_lookup_insert_ne.
Qed.

Lemma users_setattr (r : ref) (a : attr) (w : world) :
  _users (snd (setattr r a w)) = _users w.
Proof.
  unfold setattr, bind, deref. now destruct (heap w !! r).
Qed.

(** X9. A lookup reads nothing of a record but its [id]: after an
    assignment to the [email], the [name] or the [created_at] of any object,
    by whoever holds it, every lookup returns the reference it returned
    before, or [None] as before. *)
Theorem lookups_read_only_the_id
  (w : world) (r : ref) (a : attr) (k : Z) :
  wf w -> writes_id a = false ->
  fst (UserService.get_user_by_id k (snd (setattr r a w))) =
  fst (UserService.get_user_by_id k w).
Proof.
  intros Hw Ha.
  rewrite (get_user_by_id_find _ _ (wf_setattr r a w Hw)).
  rewrite (get_user_by_id_find _ _ Hw). simpl.
  rewrite users_setattr. f_equal. apply find_agree.
  apply Forall_forall. intros r' _. unfold matches.
  now rewrite id_of_setattr.
Qed.

Lemma lookups_read_only_the_id_witness :
  wf alice_only /\ writes_id (attr_email "") = false /\
  fst (UserService.get_user_by_id 1
         (snd (setattr 0%nat (attr_email "") alice_only))) =
  fst (UserService.get_user_by_id 1 alice_only).
Proof.
  assert (H1 : wf alice_only) by (repeat constructor).
  assert (H2 : writes_id (attr_email "") = false) by reflexivity.
  split; [exact H1|]. split; [exact H2|].
  exact (lookups_read_only_the_id alice_only 0%nat (attr_email "") 1 H1 H2).
Defined.
